(** * ivy/data_classes/array/experimental/activations.py

    The class [_ArrayWithActivationsExperimental] holds eleven instance
    methods, each of which is a single [return ivy.N(...)].  The embedding
    has three layers:

    - [Py]: the fragment of the Python object model the file relies on
      (values, instance attributes, exceptions, and the binding of call
      arguments to a [def] signature with [/] and [*] markers);
    - the section [Facade]: the eleven methods, written over a state and
      exception monad, with the [ivy] namespace as a section variable;
    - the theorems about them. *)

From Stdlib Require Import Floats.SpecFloat.
From stdpp Require Import gmap strings list fin_maps.

Open Scope Z_scope.
Open Scope string_scope.
Open Scope list_scope.

(** ** The Python fragment *)

Module Py.

Abbreviation loc := positive.

(** Values that reach this layer: [None], integer and float literals,
    strings, and references to heap objects (an [ivy.Array] wrapper, a
    native buffer, or anything else the caller passes). *)
Inductive value : Type :=
| VNone
| VInt (z : Z)
| VFloat (f : spec_float)
| VStr (s : string)
| VRef (l : loc).

#[global] Instance spec_float_eq_dec : EqDecision spec_float.
Proof. solve_decision. Defined.

#[global] Instance value_eq_dec : EqDecision value.
Proof. solve_decision. Defined.

#[global] Instance value_inhabited : Inhabited value := populate VNone.

(** The float literal [1.0] as a binary64 number. *)
Definition float_1_0 : spec_float := S754_finite false 4503599627370496 (-52).

(** An object is its instance dictionary; the heap maps references to
    objects. *)
Abbreviation heap := (gmap positive (gmap string value)).

(** Why a call was rejected while binding its arguments. *)
Inductive bind_error : Type :=
| TooManyPositional
| UnexpectedKeyword (k : string)
| PositionalOnlyAsKeyword (k : string)
| MultipleValues (k : string)
| MissingArgument (k : string).

Inductive exn : Type :=
| TypeError (why : bind_error)
| AttributeError (obj : value) (attr : string)
| Exception (payload : value).

Inductive outcome (A : Type) : Type :=
| Return (a : A)
| Raise (e : exn).
Arguments Return {A} a.
Arguments Raise {A} e.

(** *** Signatures *)

Inductive param_kind : Type := PosOnly | PosOrKw | KwOnly.

#[global] Instance param_kind_eq_dec : EqDecision param_kind.
Proof. solve_decision. Defined.

Record param : Type := Param {
  p_name : string;
  p_kind : param_kind;
  p_default : option value
}.

Definition find_param (ps : list param) (k : string) : option param :=
  list_find (λ p, p_name p = k) ps ≫= λ ip, Some ip.2.

(** Parameters that a positional argument can fill, in order. *)
Definition positional_slots (ps : list param) : list param :=
  filter (λ p, p_kind p ≠ KwOnly) ps.

(** One keyword argument [k=v] of the call. *)
Definition bind_keyword (ps : list param) (env : gmap string value)
    (kv : string * value) : bind_error + gmap string value :=
  match find_param ps kv.1 with
  | None => inl (UnexpectedKeyword kv.1)
  | Some p =>
      match p_kind p with
      | PosOnly => inl (PositionalOnlyAsKeyword kv.1)
      | _ =>
          match env !! kv.1 with
          | Some _ => inl (MultipleValues kv.1)
          | None => inr (<[kv.1 := kv.2]> env)
          end
      end
  end.

Fixpoint bind_keywords (ps : list param) (env : gmap string value)
    (kws : list (string * value)) : bind_error + gmap string value :=
  match kws with
  | [] => inr env
  | kv :: kws' =>
      match bind_keyword ps env kv with
      | inl why => inl why
      | inr env' => bind_keywords ps env' kws'
      end
  end.

(** Parameters still unbound take their default, or the call fails. *)
Fixpoint fill_defaults (ps : list param) (env : gmap string value)
    : bind_error + gmap string value :=
  match ps with
  | [] => inr env
  | p :: ps' =>
      match env !! p_name p with
      | Some _ => fill_defaults ps' env
      | None =>
          match p_default p with
          | Some d => fill_defaults ps' (<[p_name p := d]> env)
          | None => inl (MissingArgument (p_name p))
          end
      end
  end.

(** Positional arguments fill the positional slots from the left;
    arguments beyond the last slot are not bound here and are reported
    by [bind_args]. *)
Definition bind_positional (ps : list param) (args : list value)
    : gmap string value :=
  list_to_map (zip (p_name <$> positional_slots ps) args).

(** Argument binding of a call with positional arguments [args] and
    keyword arguments [kws] against the signature [ps], in the order
    the interpreter performs it: positional arguments fill the
    positional slots, keywords are matched by name, an excess of
    positional arguments is reported, defaults are filled in. *)
Definition bind_args (ps : list param) (args : list value)
    (kws : list (string * value)) : bind_error + gmap string value :=
  match bind_keywords ps (bind_positional ps args) kws with
  | inl why => inl why
  | inr env1 =>
      if decide (length (positional_slots ps) < length args)%nat
      then inl TooManyPositional
      else fill_defaults ps env1
  end.

(** Reading a local variable of the callee's frame. *)
Definition local (env : gmap string value) (x : string) : value :=
  default VNone (env !! x).

(** *** Calls and the world they run in *)

(** A backend invocation as a recording stub would log it. *)
Record call : Type := Call {
  fn : string;
  operands : list value;
  keywords : list (string * value)
}.

(** A Python callable: it may return or raise, and may mutate the heap
    (for instance write into [out]). *)
Abbreviation pyfunc :=
  (list value → list (string * value) → heap
     → outcome value * heap).

(** The heap, and the log of backend invocations made so far. *)
Record world : Type := World {
  w_heap : heap;
  w_calls : list call
}.

Definition M (A : Type) : Type := world → outcome A * world.

Definition raise {A} (e : exn) : M A := λ w, (Raise e, w).

Definition bind {A B} (m : M A) (k : A → M B) : M B :=
  λ w, match m w with
       | (Return a, w') => k a w'
       | (Raise e, w') => (Raise e, w')
       end.

(** The instance attribute [a] of [o], if [o] is an object that has
    one. *)
Definition read_attr (h : heap) (o : value)
    (a : string) : option value :=
  match o with
  | VRef l => h !! l ≫= (.!! a)
  | _ => None
  end.

(** The expression [o.a]. *)
Definition getattr (o : value) (a : string) : M value :=
  λ w, match read_attr (w_heap w) o a with
       | Some v => (Return v, w)
       | None => (Raise (AttributeError o a), w)
       end.

(** The backend invocations a computation adds to the log. *)
Definition issued {A} (m : M A) (w : world) : list call :=
  drop (length (w_calls w)) (w_calls (m w).2).

(** A function definition: bind the arguments, then run the body in
    the resulting frame. *)
Definition def (ps : list param) (body : gmap string value → M value)
    (args : list value) (kws : list (string * value)) : M value :=
  match bind_args ps args kws with
  | inl why => raise (TypeError why)
  | inr env => body env
  end.

End Py.

Import Py.

Notation "'let!' x ':=' m 'in' k" := (Py.bind m (λ x, k))
  (at level 10, x name, m at level 100, k at level 200, only parsing).

(** ** Signatures of the eleven methods

    Parameters before [/] are positional-only, parameters after [*] are
    keyword-only, and a [def] without either marker declares
    positional-or-keyword parameters. *)

Definition logit_sig : list param :=
  [ Param "self" PosOnly None;
    Param "eps" KwOnly (Some VNone);
    Param "complex_mode" KwOnly (Some (VStr "jax"));
    Param "out" KwOnly (Some VNone) ].

Definition thresholded_relu_sig : list param :=
  [ Param "self" PosOnly None;
    Param "threshold" KwOnly (Some (VInt 0));
    Param "out" KwOnly (Some VNone) ].

Definition prelu_sig : list param :=
  [ Param "self" PosOnly None;
    Param "slope" PosOnly None;
    Param "out" KwOnly (Some VNone) ].

Definition relu6_sig : list param :=
  [ Param "self" PosOnly None;
    Param "complex_mode" KwOnly (Some (VStr "jax"));
    Param "out" KwOnly (Some VNone) ].

Definition logsigmoid_sig : list param :=
  [ Param "self" PosOrKw None;
    Param "complex_mode" PosOrKw (Some (VStr "jax")) ].

Definition selu_sig : list param :=
  [ Param "self" PosOnly None;
    Param "out" KwOnly (Some VNone) ].

Definition silu_sig : list param :=
  [ Param "self" PosOnly None;
    Param "out" KwOnly (Some VNone) ].

Definition elu_sig : list param :=
  [ Param "self" PosOnly None;
    Param "alpha" KwOnly (Some (VFloat float_1_0));
    Param "out" KwOnly (Some VNone) ].

Definition hardtanh_sig : list param :=
  [ Param "self" PosOnly None;
    Param "max_val" KwOnly (Some (VInt 1));
    Param "min_val" KwOnly (Some (VInt (-1)));
    Param "out" KwOnly (Some VNone) ].

Definition tanhshrink_sig : list param :=
  [ Param "self" PosOnly None;
    Param "out" KwOnly (Some VNone) ].

Definition celu_sig : list param :=
  [ Param "self" PosOnly None;
    Param "alpha" KwOnly (Some (VFloat float_1_0));
    Param "complex_mode" KwOnly (Some (VStr "jax"));
    Param "out" KwOnly (Some VNone) ].

(** The method names of the class. *)
Inductive activation : Type :=
| Logit | ThresholdedRelu | Prelu | Relu6 | Logsigmoid | Selu | Silu
| Elu | Hardtanh | Tanhshrink | Celu.

#[global] Instance activation_eq_dec : EqDecision activation.
Proof. solve_decision. Defined.

Definition name_of (n : activation) : string :=
  match n with
  | Logit => "logit"
  | ThresholdedRelu => "thresholded_relu"
  | Prelu => "prelu"
  | Relu6 => "relu6"
  | Logsigmoid => "logsigmoid"
  | Selu => "selu"
  | Silu => "silu"
  | Elu => "elu"
  | Hardtanh => "hardtanh"
  | Tanhshrink => "tanhshrink"
  | Celu => "celu"
  end.

Definition sig_of (n : activation) : list param :=
  match n with
  | Logit => logit_sig
  | ThresholdedRelu => thresholded_relu_sig
  | Prelu => prelu_sig
  | Relu6 => relu6_sig
  | Logsigmoid => logsigmoid_sig
  | Selu => selu_sig
  | Silu => silu_sig
  | Elu => elu_sig
  | Hardtanh => hardtanh_sig
  | Tanhshrink => tanhshrink_sig
  | Celu => celu_sig
  end.

(** ** The class [_ArrayWithActivationsExperimental] *)

Section Facade.

(** The module [ivy]: the attribute [ivy.N] resolves to a callable for
    every name the class uses. *)
Variable ivy : string → pyfunc.

(** A call of [ivy.f] with the given operands and keywords, logged. *)
Definition ivy_call (f : string) (args : list value)
    (kws : list (string * value)) : M value :=
  λ w, let '(r, h) := ivy f args kws (w_heap w) in
       (r, World h (w_calls w ++ [Call f args kws])).

Definition logit : list value → list (string * value) → M value :=
  def logit_sig (λ env,
    ivy_call "logit" [local env "self"]
      [("eps", local env "eps");
       ("complex_mode", local env "complex_mode");
       ("out", local env "out")]).

Definition thresholded_relu : list value → list (string * value) → M value :=
  def thresholded_relu_sig (λ env,
    let! data := getattr (local env "self") "_data" in
    ivy_call "thresholded_relu" [data]
      [("threshold", local env "threshold"); ("out", local env "out")]).

Definition prelu : list value → list (string * value) → M value :=
  def prelu_sig (λ env,
    let! data := getattr (local env "self") "_data" in
    ivy_call "prelu" [data; local env "slope"] [("out", local env "out")]).

Definition relu6 : list value → list (string * value) → M value :=
  def relu6_sig (λ env,
    let! data := getattr (local env "self") "_data" in
    ivy_call "relu6" [data]
      [("complex_mode", local env "complex_mode"); ("out", local env "out")]).

Definition logsigmoid : list value → list (string * value) → M value :=
  def logsigmoid_sig (λ env,
    let! data := getattr (local env "self") "_data" in
    ivy_call "logsigmoid" [data]
      [("complex_mode", local env "complex_mode")]).

Definition selu : list value → list (string * value) → M value :=
  def selu_sig (λ env,
    let! data := getattr (local env "self") "_data" in
    ivy_call "selu" [data] [("out", local env "out")]).

Definition silu : list value → list (string * value) → M value :=
  def silu_sig (λ env,
    let! data := getattr (local env "self") "_data" in
    ivy_call "silu" [data] [("out", local env "out")]).

Definition elu : list value → list (string * value) → M value :=
  def elu_sig (λ env,
    let! data := getattr (local env "self") "_data" in
    ivy_call "elu" [data]
      [("alpha", local env "alpha"); ("out", local env "out")]).

Definition hardtanh : list value → list (string * value) → M value :=
  def hardtanh_sig (λ env,
    let! data := getattr (local env "self") "_data" in
    ivy_call "hardtanh" [data]
      [("min_val", local env "min_val");
       ("max_val", local env "max_val");
       ("out", local env "out")]).

Definition tanhshrink : list value → list (string * value) → M value :=
  def tanhshrink_sig (λ env,
    let! data := getattr (local env "self") "_data" in
    ivy_call "tanhshrink" [data] [("out", local env "out")]).

Definition celu : list value → list (string * value) → M value :=
  def celu_sig (λ env,
    let! data := getattr (local env "self") "_data" in
    ivy_call "celu" [data]
      [("alpha", local env "alpha");
       ("complex_mode", local env "complex_mode");
       ("out", local env "out")]).

Definition method (n : activation)
    : list value → list (string * value) → M value :=
  match n with
  | Logit => logit
  | ThresholdedRelu => thresholded_relu
  | Prelu => prelu
  | Relu6 => relu6
  | Logsigmoid => logsigmoid
  | Selu => selu
  | Silu => silu
  | Elu => elu
  | Hardtanh => hardtanh
  | Tanhshrink => tanhshrink
  | Celu => celu
  end.

(** [handle.N(...)]: the bound method passes the receiver as the first
    positional argument. *)
Definition invoke (n : activation) (self : value) (args : list value)
    (kws : list (string * value)) : M value :=
  method n (self :: args) kws.

End Facade.

(** ** Vocabulary of the statements *)

(** [self] is an array handle whose [_data] attribute is [data]. *)
Definition wraps (h : heap) (self data : value)
    : Prop :=
  read_attr h self "_data" = Some data.

(** The parameters of a method other than the receiver: those declared
    before [/], and those that can be given by keyword. *)
Definition declared_positional (n : activation) : list param :=
  filter (λ p, p_kind p = PosOnly ∧ p_name p ≠ "self") (sig_of n).

Definition declared_keywords (n : activation) : list param :=
  filter (λ p, p_kind p ≠ PosOnly ∧ p_name p ≠ "self") (sig_of n).

(** The first operand a method hands to the backend: the receiver for
    logit, the receiver's [_data] for the others (which raise if there
    is none). *)
Definition receiver_operand n (h : heap) self
    : option value :=
  if decide (n = Logit) then Some self else read_attr h self "_data".

(** The defaults as the specification's table of per-method parameters
    gives them, with [out=None] for every method that has [out]. *)
Definition documented_defaults (n : activation) : list (string * value) :=
  match n with
  | Logit =>
      [("eps", VNone); ("complex_mode", VStr "jax"); ("out", VNone)]
  | ThresholdedRelu => [("threshold", VInt 0); ("out", VNone)]
  | Prelu => [("out", VNone)]
  | Relu6 => [("complex_mode", VStr "jax"); ("out", VNone)]
  | Logsigmoid => [("complex_mode", VStr "jax")]
  | Selu => [("out", VNone)]
  | Silu => [("out", VNone)]
  | Elu => [("alpha", VFloat float_1_0); ("out", VNone)]
  | Hardtanh => [("max_val", VInt 1); ("min_val", VInt (-1)); ("out", VNone)]
  | Tanhshrink => [("out", VNone)]
  | Celu =>
      [("alpha", VFloat float_1_0); ("complex_mode", VStr "jax");
       ("out", VNone)]
  end.

(** The defaults the signatures declare. *)
Definition declared_defaults (n : activation) : list (string * value) :=
  omap (λ p, pair (p_name p) <$> p_default p) (sig_of n).

(** The parameter names other than the receiver and prelu's slope. *)
Definition extra_names : list string :=
  ["threshold"; "eps"; "complex_mode"; "alpha"; "max_val"; "min_val"; "out"].

(** The names that the positional arguments after the receiver fill. *)
Definition filled_positionally (n : activation) (args : list value)
    : list string :=
  take (length args) (p_name <$> drop 1 (positional_slots (sig_of n))).

(** The shape of a call [handle.N(...)] that the signature of [N] lets
    through: as many positional arguments as there are parameters before
    [/] at least, and as there are positional slots at most; no keyword
    twice; every keyword one that [N] declares and that no positional
    argument has filled. *)
Definition accepted (n : activation) (args : list value)
    (kws : list (string * value)) : Prop :=
  (length (declared_positional n) ≤ length args
   ∧ length args ≤ length (drop 1 (positional_slots (sig_of n))))%nat
  ∧ NoDup kws.*1
  ∧ ∀ k, k ∈ kws.*1 →
      k ∈ p_name <$> declared_keywords n ∧ k ∉ filled_positionally n args.

(** ** Stub backends *)

(** Returns a fixed sentinel and leaves the heap alone. *)
Definition stub_return (v : value) : string → pyfunc :=
  λ _ _ _ h, (Return v, h).

(** Raises a fixed exception. *)
Definition stub_raise (e : exn) : string → pyfunc :=
  λ _ _ _ h, (Raise e, h).

(** A heap with an array handle at [1] wrapping the native buffer at [2],
    and a second handle at [3] wrapping the buffer at [4]. *)
Definition heap0 : heap :=
  {[ 1%positive := {[ "_data" := VRef 2 ]};
     2%positive := ∅;
     3%positive := {[ "_data" := VRef 4 ]};
     4%positive := ∅ ]}.

Definition w0 : world := World heap0 [].

(** A second world: the same handle at [1], other objects elsewhere,
    and a call already in the log. *)
Definition w1 : world :=
  World {[ 1%positive := {[ "_data" := VRef 2 ]};
           7%positive := {[ "_data" := VRef 8 ]} ]}
        [Call "selu" [VRef 8] [("out", VNone)]].

(** Frames that sample calls bind. *)
Definition env_hardtanh_3 : gmap string value :=
  list_to_map [("self", VRef 1); ("max_val", VInt 3);
               ("min_val", VInt (-1)); ("out", VNone)].

Definition env_elu_default : gmap string value :=
  list_to_map [("self", VRef 1); ("alpha", VFloat float_1_0); ("out", VNone)].

Definition env_selu_out : gmap string value :=
  list_to_map [("self", VRef 1); ("out", VRef 3)].

(** ** Sample runs *)

Example logit_no_args :
  invoke (stub_return (VStr "sentinel")) Logit (VRef 1) [] [] w0
  = (Return (VStr "sentinel"),
     World heap0 [Call "logit" [VRef 1]
        [("eps", VNone); ("complex_mode", VStr "jax"); ("out", VNone)]]).
Proof. vm_compute. reflexivity. Qed.

Example hardtanh_no_args :
  invoke (stub_return (VStr "sentinel")) Hardtanh (VRef 1) [] [] w0
  = (Return (VStr "sentinel"),
     World heap0 [Call "hardtanh" [VRef 2]
        [("min_val", VInt (-1)); ("max_val", VInt 1); ("out", VNone)]]).
Proof. vm_compute. reflexivity. Qed.

Example logsigmoid_positional :
  invoke (stub_return (VStr "sentinel")) Logsigmoid (VRef 1) [VStr "split"] [] w0
  = (Return (VStr "sentinel"),
     World heap0 [Call "logsigmoid" [VRef 2] [("complex_mode", VStr "split")]]).
Proof. vm_compute. reflexivity. Qed.

Example prelu_no_slope :
  invoke (stub_return (VStr "sentinel")) Prelu (VRef 1) [] [] w0
  = (Raise (TypeError (MissingArgument "slope")), w0).
Proof. vm_compute. reflexivity. Qed.

Example prelu_slope_by_keyword :
  invoke (stub_return (VStr "sentinel")) Prelu (VRef 1) [] [("slope", VInt 2)] w0
  = (Raise (TypeError (PositionalOnlyAsKeyword "slope")), w0).
Proof. vm_compute. reflexivity. Qed.

Example prelu_with_slope :
  invoke (stub_return (VStr "sentinel")) Prelu (VRef 1) [VInt 2]
    [("out", VRef 3)] w0
  = (Return (VStr "sentinel"),
     World heap0 [Call "prelu" [VRef 2; VInt 2] [("out", VRef 3)]]).
Proof. vm_compute. reflexivity. Qed.

Example logsigmoid_out_rejected :
  invoke (stub_return (VStr "sentinel")) Logsigmoid (VRef 1) []
    [("out", VRef 3)] w0
  = (Raise (TypeError (UnexpectedKeyword "out")), w0).
Proof. vm_compute. reflexivity. Qed.

Example elu_alpha_positional_rejected :
  invoke (stub_return (VStr "sentinel")) Elu (VRef 1) [VInt 2] [] w0
  = (Raise (TypeError TooManyPositional), w0).
Proof. vm_compute. reflexivity. Qed.

(** On a receiver without [_data], logit still reaches the backend; the
    methods that unwrap do not. *)
Example logit_on_plain_value :
  invoke (stub_return (VStr "sentinel")) Logit (VInt 5) [] [] w0
  = (Return (VStr "sentinel"),
     World heap0 [Call "logit" [VInt 5]
        [("eps", VNone); ("complex_mode", VStr "jax"); ("out", VNone)]]).
Proof. vm_compute. reflexivity. Qed.

Example selu_on_plain_value :
  invoke (stub_return (VStr "sentinel")) Selu (VInt 5) [] [] w0
  = (Raise (AttributeError (VInt 5) "_data"), w0).
Proof. vm_compute. reflexivity. Qed.

(** ** Properties of argument binding *)

Section Binding.

Implicit Types (ps : list param) (env : gmap string value)
  (kws : list (string * value)) (args : list value) (k : string) (v : value).

Lemma find_param_Some ps k p :
  find_param ps k = Some p → p ∈ ps ∧ p_name p = k.
Proof.
  unfold find_param. intros H.
  destruct (list_find _ ps) as [[i q]|] eqn:E; simplify_eq/=.
  apply list_find_Some in E as (Hi & Hq & _).
  split; [by eapply list_elem_of_lookup_2 | done].
Qed.

Lemma find_param_cons q ps k :
  find_param (q :: ps) k
  = if decide (p_name q = k) then Some q else find_param ps k.
Proof.
  unfold find_param. simpl. case_decide; [done|].
  by destruct (list_find _ ps) as [[??]|].
Qed.

Lemma bind_keyword_inr ps env kv env' :
  bind_keyword ps env kv = inr env' →
  env !! kv.1 = None ∧ env' = <[kv.1 := kv.2]> env
  ∧ ∃ p, find_param ps kv.1 = Some p ∧ p_kind p ≠ PosOnly.
Proof.
  unfold bind_keyword. intros H.
  destruct (find_param ps kv.1) as [p|]; [|done].
  destruct (p_kind p) eqn:Ek; [done| |];
    (destruct (env !! kv.1); [done|]); simplify_eq;
    (split_and!; [done..|exists p; by rewrite Ek]).
Qed.

(** Keywords only ever add bindings. *)
Lemma bind_keywords_mono ps kws : ∀ env env',
  bind_keywords ps env kws = inr env' → env ⊆ env'.
Proof.
  induction kws as [|kv kws IH]; intros env env' H; simpl in H.
  - by simplify_eq.
  - destruct (bind_keyword ps env kv) as [|env1] eqn:E; [done|].
    apply bind_keyword_inr in E as (Hk & -> & _).
    etrans; [|by apply IH]. by apply insert_subseteq.
Qed.

(** A keyword the caller supplied names a parameter that accepts
    keywords, was not bound before, and is bound to the caller's value. *)
Lemma bind_keywords_supplied ps kws : ∀ env env' k v,
  bind_keywords ps env kws = inr env' → (k, v) ∈ kws →
  env' !! k = Some v ∧ env !! k = None
  ∧ ∃ p, find_param ps k = Some p ∧ p_kind p ≠ PosOnly.
Proof.
  induction kws as [|kv kws IH]; intros env env' k v H Hin; simpl in H.
  - by apply elem_of_nil in Hin.
  - destruct (bind_keyword ps env kv) as [|env1] eqn:E; [done|].
    pose proof (bind_keywords_mono _ _ _ _ H) as Hsub.
    apply bind_keyword_inr in E as (Hk & -> & Hp).
    apply elem_of_cons in Hin as [<-|Hin]; simpl in *.
    + split_and!; [|done..].
      eapply lookup_weaken; [|done]. by rewrite lookup_insert_eq.
    + destruct (IH _ _ _ _ H Hin) as (H1 & H2 & H3).
      split_and!; [done| |done].
      destruct (decide (kv.1 = k)) as [<-|Hne]; [done|].
      by rewrite lookup_insert_ne in H2.
Qed.

(** Every binding after the keywords was there before or was supplied. *)
Lemma bind_keywords_origin ps kws : ∀ env env' k v,
  bind_keywords ps env kws = inr env' → env' !! k = Some v →
  env !! k = Some v ∨ (k, v) ∈ kws.
Proof.
  induction kws as [|kv kws IH]; intros env env' k v H Hl; simpl in H.
  - simplify_eq. by left.
  - destruct (bind_keyword ps env kv) as [|env1] eqn:E; [done|].
    apply bind_keyword_inr in E as (Hk & -> & _).
    destruct (IH _ _ _ _ H Hl) as [H1|H1].
    + destruct (decide (kv.1 = k)) as [<-|Hne].
      * rewrite lookup_insert_eq in H1. simplify_eq.
        right. destruct kv. apply elem_of_cons. by left.
      * rewrite lookup_insert_ne in H1 by done. by left.
    + right. apply elem_of_cons. by right.
Qed.

Lemma fill_defaults_mono ps : ∀ env env',
  fill_defaults ps env = inr env' → env ⊆ env'.
Proof.
  induction ps as [|p ps IH]; intros env env' H; simpl in H.
  - by simplify_eq.
  - destruct (env !! p_name p) eqn:E; [by apply IH|].
    destruct (p_default p); [|done].
    etrans; [|by apply IH]. by apply insert_subseteq.
Qed.

(** A name left unbound by the caller ends up with the default of the
    parameter of that name. *)
Lemma fill_defaults_unbound ps : ∀ env env' k,
  fill_defaults ps env = inr env' → env !! k = None →
  env' !! k = find_param ps k ≫= p_default.
Proof.
  induction ps as [|p ps IH]; intros env env' k H Hk; simpl in H.
  - by simplify_eq.
  - rewrite find_param_cons. case_decide as Hn; simpl.
    + subst k. rewrite Hk in H.
      destruct (p_default p) as [d|]; [|done].
      apply fill_defaults_mono in H.
      eapply lookup_weaken; [|done]. by rewrite lookup_insert_eq.
    + destruct (env !! p_name p) eqn:E; [by apply (IH env)|].
      destruct (p_default p) as [d|]; [|done].
      apply (IH (<[p_name p := d]> env)); [done|]. by rewrite lookup_insert_ne.
Qed.

(** A required parameter left unbound makes the call fail. *)
Lemma fill_defaults_missing ps : ∀ env k p,
  find_param ps k = Some p → p_default p = None → env !! k = None →
  ∃ why, fill_defaults ps env = inl why.
Proof.
  induction ps as [|q ps IH]; intros env k p Hf Hd Hk; [done|].
  rewrite find_param_cons in Hf. simpl. case_decide as Hn.
  - simplify_eq. rewrite Hk, Hd. by eexists.
  - destruct (env !! p_name q) eqn:E; [by apply (IH env k p)|].
    destruct (p_default q) as [d|]; [|by eexists].
    apply (IH _ k p); [done..|]. by rewrite lookup_insert_ne.
Qed.

Lemma bind_args_inr ps args kws env :
  bind_args ps args kws = inr env →
  ∃ env1, bind_keywords ps (bind_positional ps args) kws = inr env1
    ∧ (length args ≤ length (positional_slots ps))%nat
    ∧ fill_defaults ps env1 = inr env.
Proof.
  unfold bind_args. intros H.
  destruct (bind_keywords _ _ _) as [|env1]; [done|].
  case_decide; [done|]. exists env1. split_and!; [done|lia|done].
Qed.

(** A keyword argument reaches the frame unchanged. *)
Lemma bind_args_keyword ps args kws env k v :
  bind_args ps args kws = inr env → (k, v) ∈ kws →
  env !! k = Some v ∧ bind_positional ps args !! k = None
  ∧ ∃ p, find_param ps k = Some p ∧ p_kind p ≠ PosOnly.
Proof.
  intros (env1 & Hk & _ & Hd)%bind_args_inr Hin.
  destruct (bind_keywords_supplied _ _ _ _ _ _ Hk Hin) as (H1 & H2 & H3).
  split_and!; [|done..].
  eapply lookup_weaken; [done|]. by eapply fill_defaults_mono.
Qed.

(** A positional argument reaches the frame unchanged. *)
Lemma bind_args_positional ps args kws env k v :
  bind_args ps args kws = inr env → bind_positional ps args !! k = Some v →
  env !! k = Some v.
Proof.
  intros (env1 & Hk & _ & Hd)%bind_args_inr H0.
  eapply lookup_weaken; [|by eapply fill_defaults_mono].
  eapply lookup_weaken; [done|]. by eapply bind_keywords_mono.
Qed.

(** A parameter the caller left out holds its default. *)
Lemma bind_args_default ps args kws env k :
  bind_args ps args kws = inr env →
  bind_positional ps args !! k = None → k ∉ kws.*1 →
  env !! k = find_param ps k ≫= p_default.
Proof.
  intros (env1 & Hk & _ & Hd)%bind_args_inr H0 Hnot.
  eapply fill_defaults_unbound; [done|].
  destruct (env1 !! k) as [v|] eqn:E; [|done].
  destruct (bind_keywords_origin _ _ _ _ _ _ Hk E) as [H1|H1]; [congruence|].
  destruct Hnot. apply list_elem_of_fmap. by exists (k, v).
Qed.

(** More positional arguments than slots: the call is rejected. *)
Lemma bind_args_too_many ps args kws :
  (length (positional_slots ps) < length args)%nat →
  ∃ why, bind_args ps args kws = inl why.
Proof.
  intros Hlen. unfold bind_args.
  destruct (bind_keywords _ _ _); [by eexists|].
  rewrite decide_True by done. by eexists.
Qed.

(** A required positional-only parameter with no positional argument:
    the call is rejected, whatever keywords are given. *)
Lemma bind_args_missing ps args kws k p :
  find_param ps k = Some p → p_default p = None → p_kind p = PosOnly →
  bind_positional ps args !! k = None →
  ∃ why, bind_args ps args kws = inl why.
Proof.
  intros Hf Hd Hkind H0. unfold bind_args.
  destruct (bind_keywords _ _ _) as [|env1] eqn:Hk; [by eexists|].
  case_decide; [by eexists|].
  eapply fill_defaults_missing; [done..|].
  destruct (env1 !! k) as [v|] eqn:E; [|done].
  destruct (bind_keywords_origin _ _ _ _ _ _ Hk E) as [H1|H1]; [congruence|].
  destruct (bind_keywords_supplied _ _ _ _ _ _ Hk H1) as (_ & _ & q & Hq & Hne).
  congruence.
Qed.

End Binding.

(** ** What a method call does *)

Section FacadeFacts.

Implicit Types (ivy : string → pyfunc) (n : activation)
  (self data : value) (args : list value)
  (kws : list (string * value)) (env : gmap string value) (w : world)
  (c : call).

Lemma self_positional n self args :
  bind_positional (sig_of n) (self :: args) !! "self" = Some self.
Proof. destruct n; apply lookup_insert_eq. Qed.

Lemma bound_self n self args kws env :
  bind_args (sig_of n) (self :: args) kws = inr env →
  local env "self" = self.
Proof.
  intros H. unfold local.
  erewrite bind_args_positional; [done..|]. apply self_positional.
Qed.

(** A keyword accepted by a method names one of its declared keyword
    parameters, and the frame holds the caller's value for it. *)
Lemma keyword_declared n self args kws env k v :
  bind_args (sig_of n) (self :: args) kws = inr env → (k, v) ∈ kws →
  ∃ p, p ∈ declared_keywords n ∧ p_name p = k ∧ local env k = v.
Proof.
  intros Hb Hin.
  destruct (bind_args_keyword _ _ _ _ _ _ Hb Hin) as (He & H0 & p & Hp & Hk).
  apply find_param_Some in Hp as [Hp <-].
  exists p. split_and!; [|done|by unfold local; rewrite He].
  apply list_elem_of_filter. split_and!; [done| |done].
  intros Hs. rewrite Hs, self_positional in H0. done.
Qed.

(** An extra positional argument accepted by a method sits in the
    frame under the name of the slot it filled. *)
Lemma positional_declared n self args kws env a :
  bind_args (sig_of n) (self :: args) kws = inr env → a ∈ args →
  ∃ p, p ∈ sig_of n ∧ p_name p ≠ "self" ∧ local env (p_name p) = a.
Proof.
  intros Hb Hin.
  pose proof (bind_args_inr _ _ _ _ Hb) as (_ & _ & Hlen & _).
  assert (∀ k, bind_positional (sig_of n) (self :: args) !! k = Some a →
               local env k = a) as Hpos.
  { intros k Hk. unfold local.
    by erewrite bind_args_positional. }
  destruct n; simpl in Hlen;
    destruct args as [|a0 [|a1 args]]; simpl in Hlen; try lia;
    try (by apply elem_of_nil in Hin);
    apply list_elem_of_singleton in Hin as ->.
  - exists (Param "slope" PosOnly None).
    split_and!; [by apply list_elem_of_lookup_2 with 1%nat|done|].
    by apply Hpos.
  - exists (Param "complex_mode" PosOrKw (Some (VStr "jax"))).
    split_and!; [by apply list_elem_of_lookup_2 with 1%nat|done|].
    by apply Hpos.
Qed.

Lemma receiver_operand_other n h self :
  n ≠ Logit → receiver_operand n h self = read_attr h self "_data".
Proof. intros Hn. unfold receiver_operand. by rewrite decide_False. Qed.

(** The three ways a method call can go.  The call handed to the
    backend depends on the method, the first operand and the frame,
    and on nothing else. *)
Lemma invoke_cases n self args kws :
  match bind_args (sig_of n) (self :: args) kws with
  | inl why =>
      ∀ ivy w, invoke ivy n self args kws w = (Raise (TypeError why), w)
  | inr env =>
      (∀ ivy w, receiver_operand n (w_heap w) self = None →
         invoke ivy n self args kws w
         = (Raise (AttributeError self "_data"), w))
      ∧ ∀ first, ∃ c,
          fn c = name_of n
          ∧ operands c
            = first :: ((λ p, local env (p_name p)) <$> declared_positional n)
          ∧ keywords c
            ≡ₚ (λ p, (p_name p, local env (p_name p))) <$> declared_keywords n
          ∧ ∀ ivy w, receiver_operand n (w_heap w) self = Some first →
              invoke ivy n self args kws w
              = ivy_call ivy (fn c) (operands c) (keywords c) w
  end.
Proof.
  destruct (bind_args _ _ _) as [why|env] eqn:Hb.
  - intros ivy w.
    destruct n; unfold invoke, method, logit, thresholded_relu, prelu,
      relu6, logsigmoid, selu, silu, elu, hardtanh, tanhshrink, celu, def;
      simpl in Hb; by rewrite Hb.
  - pose proof (bound_self _ _ _ _ _ Hb) as Hself.
    split.
    + intros ivy w Hop.
      destruct n; [done|..];
        rewrite receiver_operand_other in Hop by done;
        unfold invoke, method, thresholded_relu, prelu, relu6, logsigmoid,
          selu, silu, elu, hardtanh, tanhshrink, celu, def;
        simpl in Hb; rewrite Hb; unfold Py.bind, getattr;
        by rewrite Hself, Hop.
    + intros first.
      destruct n;
        (eexists (Call _ _ _); simpl; split_and!;
         [idtac..
         |intros ivy w Hop;
          first [ injection Hop as <-
                | rewrite receiver_operand_other in Hop by done ];
          unfold invoke, method, logit, thresholded_relu, prelu, relu6,
            logsigmoid, selu, silu, elu, hardtanh, tanhshrink, celu, def;
          simpl in Hb; rewrite Hb; unfold Py.bind, getattr;
          rewrite Hself; try rewrite Hop; reflexivity];
         first [done | by apply perm_swap]).
Qed.

Lemma ivy_call_eq ivy f args kws w :
  ivy_call ivy f args kws w
  = ((ivy f args kws (w_heap w)).1,
     World (ivy f args kws (w_heap w)).2 (w_calls w ++ [Call f args kws])).
Proof. unfold ivy_call. by destruct (ivy _ _ _ _). Qed.

Lemma issued_ivy_call ivy f args kws w :
  issued (ivy_call ivy f args kws) w = [Call f args kws].
Proof.
  unfold issued. rewrite ivy_call_eq. simpl. by rewrite drop_app_length.
Qed.

Lemma issued_unchanged {A} (m : M A) (r : outcome A) w :
  m w = (r, w) → issued m w = [].
Proof. intros H. unfold issued. rewrite H. simpl. by rewrite drop_all. Qed.

Lemma issued_ext {A} (m m' : M A) w : m w = m' w → issued m w = issued m' w.
Proof. unfold issued. by intros ->. Qed.

(** A call that binds, on a handle: what the backend is asked. *)
Lemma invoke_ok ivy n self data args kws env w :
  bind_args (sig_of n) (self :: args) kws = inr env →
  wraps (w_heap w) self data →
  ∃ c, fn c = name_of n
    ∧ operands c
      = (if decide (n = Logit) then self else data)
          :: ((λ p, local env (p_name p)) <$> declared_positional n)
    ∧ keywords c
      ≡ₚ (λ p, (p_name p, local env (p_name p))) <$> declared_keywords n
    ∧ invoke ivy n self args kws w
      = ivy_call ivy (fn c) (operands c) (keywords c) w
    ∧ issued (invoke ivy n self args kws) w = [c].
Proof.
  intros Hb Hw. pose proof (invoke_cases n self args kws) as H.
  rewrite Hb in H. destruct H as [_ H].
  destruct (H (if decide (n = Logit) then self else data))
    as (c & Hf & Ho & Hk & Hrun).
  assert (invoke ivy n self args kws w
          = ivy_call ivy (fn c) (operands c) (keywords c) w) as Hr.
  { apply Hrun. unfold receiver_operand. by case_decide. }
  exists c. split_and!; [done..|].
  rewrite (issued_ext _ _ _ Hr), issued_ivy_call. by destruct c.
Qed.

End FacadeFacts.

Lemma find_param_declared (n : activation) (p : param) :
  p ∈ sig_of n → find_param (sig_of n) (p_name p) = Some p.
Proof.
  destruct n; simpl; intros H;
    repeat (apply elem_of_cons in H as [->|H]; [reflexivity|]);
    by apply elem_of_nil in H.
Qed.

Lemma optional_is_keyword (n : activation) (p : param) :
  p ∈ sig_of n → is_Some (p_default p) → p ∈ declared_keywords n.
Proof.
  intros H [d Hd]. apply list_elem_of_filter. split; [|done].
  destruct n; simpl in H;
    repeat (apply elem_of_cons in H as [->|H]; [by simplify_eq/=|]);
    by apply elem_of_nil in H.
Qed.

Lemma rejected_call (ivy : string → pyfunc) (n : activation) (self : value)
    (args : list value) (kws : list (string * value)) (w : world)
    (why : bind_error) :
  bind_args (sig_of n) (self :: args) kws = inl why →
  invoke ivy n self args kws w = (Raise (TypeError why), w)
  ∧ issued (invoke ivy n self args kws) w = [].
Proof.
  intros Hb. pose proof (invoke_cases n self args kws) as H.
  rewrite Hb in H. split; [done|]. by eapply issued_unchanged.
Qed.

(** A method call either issues nothing and leaves the world as it was,
    or behaves as one backend call; which one, and which call, depends
    on the world through the receiver's [_data] only. *)
Lemma invoke_shape (n : activation) (self : value) (args : list value)
    (kws : list (string * value)) (o : option value) :
  (∃ e, ∀ ivy w, receiver_operand n (w_heap w) self = o →
          invoke ivy n self args kws w = (Raise e, w))
  ∨ (∃ c, ∀ ivy w, receiver_operand n (w_heap w) self = o →
          invoke ivy n self args kws w
          = ivy_call ivy (fn c) (operands c) (keywords c) w).
Proof.
  pose proof (invoke_cases n self args kws) as H.
  destruct (bind_args _ _ _) as [why|env]; [left; eauto|].
  destruct H as [Hnone Hsome]. destruct o as [first|].
  - right. destruct (Hsome first) as (c & _ & _ & _ & Hc). eauto.
  - left. eauto.
Qed.

(** ** The claims *)

(** C1: every method [N] calls the backend function of the same name
    exactly once, with the receiver or its raw data as first operand and
    the declared keyword parameters forwarded unchanged, and its result
    and heap are the backend's. *)
Theorem facade_delegates (ivy : string → pyfunc) (n : activation)
    (self data : value) (args : list value) (kws : list (string * value))
    (env : gmap string value) (w : world) :
  bind_args (sig_of n) (self :: args) kws = inr env →
  wraps (w_heap w) self data →
  ∃ c : call,
    issued (invoke ivy n self args kws) w = [c]
    ∧ invoke ivy n self args kws w
      = ((ivy (fn c) (operands c) (keywords c) (w_heap w)).1,
         World (ivy (fn c) (operands c) (keywords c) (w_heap w)).2
               (w_calls w ++ [c]))
    ∧ fn c = name_of n
    ∧ (head (operands c) = Some self ∨ head (operands c) = Some data)
    ∧ keywords c
      ≡ₚ (λ p, (p_name p, local env (p_name p))) <$> declared_keywords n
    ∧ (∀ k v, (k, v) ∈ kws → (k, v) ∈ keywords c)
    ∧ (∀ a, a ∈ args → a ∈ operands c ∨ ∃ k, (k, a) ∈ keywords c).
Proof.
  intros Hb Hw.
  destruct (invoke_ok ivy n self data args kws env w Hb Hw)
    as ([f ops ks] & Hf & Ho & Hk & Hrun & Hi); simpl in *.
  exists (Call f ops ks). simpl. split_and!.
  - done.
  - by rewrite Hrun, ivy_call_eq.
  - done.
  - rewrite Ho. simpl. case_decide; eauto.
  - done.
  - intros k v Hin.
    destruct (keyword_declared n self args kws env k v Hb Hin) as (p & Hp & <- & <-).
    rewrite Hk. apply list_elem_of_fmap. by exists p.
  - intros a Hin.
    destruct (positional_declared n self args kws env a Hb Hin)
      as (p & Hp & Hns & <-).
    destruct (decide (p_kind p = PosOnly)) as [Hpo|Hpo].
    + left. rewrite Ho. apply elem_of_cons. right.
      apply list_elem_of_fmap. exists p. split; [done|].
      by apply list_elem_of_filter.
    + right. exists (p_name p). rewrite Hk.
      apply list_elem_of_fmap. exists p. split; [done|].
      by apply list_elem_of_filter.
Qed.

Lemma facade_delegates_witness :
  ∃ c : call,
    issued (invoke (stub_return (VStr "sentinel")) Hardtanh (VRef 1) []
              [("max_val", VInt 3)]) w0 = [c]
    ∧ invoke (stub_return (VStr "sentinel")) Hardtanh (VRef 1) []
        [("max_val", VInt 3)] w0
      = ((stub_return (VStr "sentinel") (fn c) (operands c) (keywords c)
            (w_heap w0)).1,
         World (stub_return (VStr "sentinel") (fn c) (operands c) (keywords c)
                  (w_heap w0)).2
               (w_calls w0 ++ [c]))
    ∧ fn c = name_of Hardtanh
    ∧ (head (operands c) = Some (VRef 1) ∨ head (operands c) = Some (VRef 2))
    ∧ keywords c
      ≡ₚ (λ p, (p_name p, local env_hardtanh_3 (p_name p)))
           <$> declared_keywords Hardtanh
    ∧ (∀ k v, (k, v) ∈ [("max_val", VInt 3)] → (k, v) ∈ keywords c)
    ∧ (∀ a, a ∈ [] → a ∈ operands c ∨ ∃ k, (k, a) ∈ keywords c).
Proof.
  apply (facade_delegates (stub_return (VStr "sentinel")) Hardtanh
           (VRef 1) (VRef 2) [] [("max_val", VInt 3)] env_hardtanh_3 w0).
  - vm_compute. reflexivity.
  - reflexivity.
Defined.

(** C2, as the code has it: [handle.logit()] asks the backend for
    [logit(handle, eps=None, complex_mode="jax", out=None)], the handle
    itself being the first operand, and returns what the backend
    returns. *)
Theorem logit_no_args_forwards_handle (ivy : string → pyfunc) (self : value)
    (w : world) :
  let kw := [("eps", VNone); ("complex_mode", VStr "jax"); ("out", VNone)] in
  invoke ivy Logit self [] [] w
  = ((ivy "logit" [self] kw (w_heap w)).1,
     World (ivy "logit" [self] kw (w_heap w)).2
           (w_calls w ++ [Call "logit" [self] kw])).
Proof.
  intros kw. unfold invoke, method, logit, def.
  assert (bind_args logit_sig [self] []
          = inr (list_to_map [("self", self); ("eps", VNone);
                              ("complex_mode", VStr "jax"); ("out", VNone)]))
    as -> by (vm_compute; reflexivity).
  rewrite ivy_call_eq. reflexivity.
Qed.

(** C2, as stated, fails: on a handle at [1] wrapping the buffer at [2],
    [handle.logit()] is logged with the handle, not the buffer, as first
    operand. *)
Lemma logit_no_args_not_raw_data :
  let kw := [("eps", VNone); ("complex_mode", VStr "jax"); ("out", VNone)] in
  wraps heap0 (VRef 1) (VRef 2)
  ∧ issued (invoke (stub_return (VStr "sentinel")) Logit (VRef 1) [] []) w0
    = [Call "logit" [VRef 1] kw]
  ∧ issued (invoke (stub_return (VStr "sentinel")) Logit (VRef 1) [] []) w0
    ≠ [Call "logit" [VRef 2] kw].
Proof.
  intros kw. split_and!; [reflexivity|by vm_compute|].
  vm_compute. intros H. discriminate H.
Qed.

(** C3: a parameter with a default that the caller leaves out reaches
    the backend with that default, and the defaults declared are the
    documented ones: [alpha=1.0] for elu and celu, [max_val=1] and
    [min_val=-1] for hardtanh, [threshold=0] for thresholded_relu,
    [complex_mode="jax"], and [out=None] throughout. *)
Theorem defaults_forwarded (ivy : string → pyfunc) (n : activation)
    (self data : value) (args : list value) (kws : list (string * value))
    (env : gmap string value) (w : world) (p : param) (d : value) :
  bind_args (sig_of n) (self :: args) kws = inr env →
  wraps (w_heap w) self data →
  p ∈ sig_of n → p_default p = Some d →
  p_name p ∉ kws.*1 →
  bind_positional (sig_of n) (self :: args) !! p_name p = None →
  declared_defaults n = documented_defaults n
  ∧ (p_name p, d) ∈ documented_defaults n
  ∧ ∃ c : call,
      issued (invoke ivy n self args kws) w = [c]
      ∧ (p_name p, d) ∈ keywords c.
Proof.
  intros Hb Hw Hp Hd Hkw Hpos.
  assert (declared_defaults n = documented_defaults n) as Hdoc
    by (by destruct n).
  split_and!; [done| |].
  - rewrite <- Hdoc. apply list_elem_of_omap. exists p.
    split; [done|]. by rewrite Hd.
  - destruct (invoke_ok ivy n self data args kws env w Hb Hw)
      as (c & Hf & Ho & Hk & Hrun & Hi).
    exists c. split; [done|].
    + rewrite Hk. apply list_elem_of_fmap. exists p. split.
      * f_equal. unfold local.
        rewrite (bind_args_default _ _ _ _ _ Hb Hpos Hkw).
        rewrite find_param_declared by done. simpl. by rewrite Hd.
      * apply optional_is_keyword; [done|]. by rewrite Hd.
Qed.

Lemma defaults_forwarded_witness :
  declared_defaults Elu = documented_defaults Elu
  ∧ ("alpha", VFloat float_1_0) ∈ documented_defaults Elu
  ∧ ∃ c : call,
      issued (invoke (stub_return (VStr "sentinel")) Elu (VRef 1) [] []) w0 = [c]
      ∧ ("alpha", VFloat float_1_0) ∈ keywords c.
Proof.
  apply (defaults_forwarded (stub_return (VStr "sentinel")) Elu
           (VRef 1) (VRef 2) [] [] env_elu_default w0
           (Param "alpha" KwOnly (Some (VFloat float_1_0)))).
  - vm_compute. reflexivity.
  - reflexivity.
  - apply list_elem_of_lookup_2 with 1%nat. reflexivity.
  - reflexivity.
  - apply not_elem_of_nil.
  - vm_compute. reflexivity.
Defined.

(** C4: every method but logsigmoid declares a keyword-only [out] with
    default [None]; logsigmoid declares none and rejects the keyword
    without calling the backend; and where [out] is accepted, the
    caller's value is the one [out] keyword of the backend call. *)
Theorem out_forwarded :
  (∀ n, n ≠ Logsigmoid → Param "out" KwOnly (Some VNone) ∈ sig_of n)
  ∧ (∀ p, p ∈ sig_of Logsigmoid → p_name p ≠ "out")
  ∧ (∀ (ivy : string → pyfunc) self args kws o w,
       ("out", o) ∈ kws →
       ∃ why, invoke ivy Logsigmoid self args kws w = (Raise (TypeError why), w)
              ∧ issued (invoke ivy Logsigmoid self args kws) w = [])
  ∧ (∀ (ivy : string → pyfunc) n self data args kws env w o,
       bind_args (sig_of n) (self :: args) kws = inr env →
       wraps (w_heap w) self data →
       ("out", o) ∈ kws →
       ∃ c : call,
         issued (invoke ivy n self args kws) w = [c]
         ∧ ("out", o) ∈ keywords c
         ∧ ∀ o', ("out", o') ∈ keywords c → o' = o).
Proof.
  split_and!.
  - intros n Hn. destruct n; try done; simpl;
      repeat first [by apply list_elem_of_here | apply list_elem_of_further].
  - intros p Hp. simpl in Hp.
    repeat (apply elem_of_cons in Hp as [->|Hp]; [done|]).
    by apply elem_of_nil in Hp.
  - intros ivy self args kws o w Hin.
    destruct (bind_args (sig_of Logsigmoid) (self :: args) kws)
      as [why|env] eqn:Hb.
    + exists why. by apply rejected_call.
    + destruct (bind_args_keyword _ _ _ _ _ _ Hb Hin) as (_ & _ & p & Hp & _).
      by vm_compute in Hp.
  - intros ivy n self data args kws env w o Hb Hw Hin.
    destruct (invoke_ok ivy n self data args kws env w Hb Hw)
      as (c & Hf & Ho & Hk & Hrun & Hi).
    destruct (keyword_declared n self args kws env "out" o Hb Hin)
      as (p & Hp & Hname & Hval).
    exists c. split_and!.
    + done.
    + rewrite Hk. apply list_elem_of_fmap. exists p.
      split; [|done]. by rewrite Hname, Hval.
    + intros o' Ho'. rewrite Hk in Ho'.
      apply list_elem_of_fmap in Ho' as (q & Hq & _). congruence.
Qed.

Lemma out_forwarded_witness :
  ∃ c : call,
    issued (invoke (stub_return (VRef 3)) Selu (VRef 1) [] [("out", VRef 3)]) w0
    = [c]
    ∧ ("out", VRef 3) ∈ keywords c
    ∧ ∀ o', ("out", o') ∈ keywords c → o' = VRef 3.
Proof.
  destruct out_forwarded as (_ & _ & _ & H).
  apply (H (stub_return (VRef 3)) Selu (VRef 1) (VRef 2) [] [("out", VRef 3)]
           env_selu_out w0 (VRef 3)).
  - vm_compute. reflexivity.
  - reflexivity.
  - apply list_elem_of_here.
Defined.

(** C5: [handle.prelu(...)] without a positional [slope] is rejected
    with a [TypeError] while binding, whatever keywords are given; the
    backend is not called and the world is as before. *)
Theorem prelu_requires_slope (ivy : string → pyfunc) (self : value)
    (kws : list (string * value)) (w : world) :
  Param "slope" PosOnly None ∈ sig_of Prelu
  ∧ ∃ why,
      invoke ivy Prelu self [] kws w = (Raise (TypeError why), w)
      ∧ issued (invoke ivy Prelu self [] kws) w = [].
Proof.
  split; [by apply list_elem_of_lookup_2 with 1%nat|].
  destruct (bind_args_missing prelu_sig [self] kws "slope"
              (Param "slope" PosOnly None)) as [why Hb]; [done..|].
  exists why. by apply rejected_call.
Qed.

(** C6: when the backend call a method makes raises [e], the method
    raises that same [e], and the heap is the one the backend left. *)
Theorem errors_propagate (ivy : string → pyfunc) (n : activation)
    (self : value) (args : list value) (kws : list (string * value))
    (w : world) (c : call) (e : exn) (h' : heap) :
  issued (invoke ivy n self args kws) w = [c] →
  ivy (fn c) (operands c) (keywords c) (w_heap w) = (Raise e, h') →
  invoke ivy n self args kws w = (Raise e, World h' (w_calls w ++ [c])).
Proof.
  intros Hc He. pose proof (invoke_cases n self args kws) as H.
  destruct (bind_args _ _ _) as [why|env] eqn:Hb.
  { apply (rejected_call ivy _ _ _ _ w) in Hb as [_ Hb]. congruence. }
  destruct H as [Hnone Hsome].
  destruct (receiver_operand n (w_heap w) self) as [first|] eqn:Hop.
  - destruct (Hsome first) as ([f ops ks] & _ & _ & _ & Hrun). simpl in Hrun.
    specialize (Hrun ivy w Hop).
    rewrite (issued_ext _ _ _ Hrun), issued_ivy_call in Hc. simplify_eq/=.
    rewrite Hrun, ivy_call_eq. by rewrite He.
  - rewrite (issued_unchanged _ _ _ (Hnone ivy w Hop)) in Hc. done.
Qed.

Lemma errors_propagate_witness :
  invoke (stub_raise (Exception (VStr "shape mismatch"))) Celu (VRef 1) []
    [("alpha", VInt 2)] w0
  = (Raise (Exception (VStr "shape mismatch")),
     World heap0
       (w_calls w0
        ++ [Call "celu" [VRef 2]
              [("alpha", VInt 2); ("complex_mode", VStr "jax"); ("out", VNone)]])).
Proof.
  apply (errors_propagate (stub_raise (Exception (VStr "shape mismatch"))) Celu
           (VRef 1) [] [("alpha", VInt 2)] w0).
  - vm_compute. reflexivity.
  - reflexivity.
Defined.

(** C7: a method call has no effect of its own.  Either nothing was
    asked of the backend and the world is untouched, or the result and
    the heap are exactly those of the one backend call; the log of
    earlier calls is never read; and under a backend that leaves the
    heap alone the heap, the receiver included, is as before. *)
Theorem facade_stateless (ivy : string → pyfunc) (n : activation)
    (self : value) (args : list value) (kws : list (string * value))
    (w : world) :
  let r := invoke ivy n self args kws w in
  ((r.2 = w ∧ issued (invoke ivy n self args kws) w = [])
   ∨ ∃ c : call,
       issued (invoke ivy n self args kws) w = [c]
       ∧ w_calls r.2 = w_calls w ++ [c]
       ∧ (r.1, w_heap r.2) = ivy (fn c) (operands c) (keywords c) (w_heap w))
  ∧ (∀ log : list call,
       invoke ivy n self args kws (World (w_heap w) log)
       = (r.1, World (w_heap r.2) (log ++ issued (invoke ivy n self args kws) w)))
  ∧ ((∀ f a k h, (ivy f a k h).2 = h) → w_heap r.2 = w_heap w).
Proof.
  intros r. subst r.
  destruct (invoke_shape n self args kws (receiver_operand n (w_heap w) self))
    as [[e H]|[c H]].
  - pose proof (H ivy w eq_refl) as Hw.
    rewrite (issued_unchanged _ _ _ Hw), Hw. simpl. split_and!.
    + by left.
    + intros log. rewrite (H ivy (World (w_heap w) log)) by done.
      by rewrite app_nil_r.
    + done.
  - pose proof (H ivy w eq_refl) as Hw.
    rewrite (issued_ext _ _ _ Hw), issued_ivy_call, Hw, ivy_call_eq. simpl.
    split_and!.
    + right. exists c. destruct c; simpl. split_and!; [done..|].
      by destruct (ivy _ _ _ _).
    + intros log. rewrite (H ivy (World (w_heap w) log)) by done.
      by rewrite ivy_call_eq.
    + intros Hpure. apply Hpure.
Qed.

Lemma facade_stateless_witness :
  w_heap (invoke (stub_return (VStr "sentinel")) Silu (VRef 1) [] [] w0).2
  = w_heap w0.
Proof.
  destruct (facade_stateless (stub_return (VStr "sentinel")) Silu (VRef 1)
              [] [] w0) as (_ & _ & H).
  apply H. intros f a k h. reflexivity.
Defined.

(** C8: logit hands the backend the receiver itself; each of the other
    ten methods hands it the receiver's [_data]. *)
Theorem first_operand (ivy : string → pyfunc) (n : activation)
    (self : value) (args : list value) (kws : list (string * value))
    (w : world) (c : call) :
  issued (invoke ivy n self args kws) w = [c] →
  if decide (n = Logit) then head (operands c) = Some self
  else ∃ data, wraps (w_heap w) self data ∧ head (operands c) = Some data.
Proof.
  intros Hc. pose proof (invoke_cases n self args kws) as H.
  destruct (bind_args _ _ _) as [why|env] eqn:Hb.
  { apply (rejected_call ivy _ _ _ _ w) in Hb as [_ Hb]. congruence. }
  destruct H as [Hnone Hsome].
  destruct (receiver_operand n (w_heap w) self) as [first|] eqn:Hop.
  - destruct (Hsome first) as (c' & _ & Ho & _ & Hrun).
    specialize (Hrun ivy w Hop).
    rewrite (issued_ext _ _ _ Hrun), issued_ivy_call in Hc.
    assert (c' = c) as -> by (destruct c'; simplify_eq/=; done).
    rewrite Ho. simpl. unfold receiver_operand in Hop.
    case_decide; [congruence|]. by exists first.
  - rewrite (issued_unchanged _ _ _ (Hnone ivy w Hop)) in Hc. done.
Qed.

Lemma first_operand_witness :
  (head (operands (Call "logit" [VRef 1]
      [("eps", VNone); ("complex_mode", VStr "jax"); ("out", VNone)]))
   = Some (VRef 1))
  ∧ ∃ data, wraps (w_heap w0) (VRef 1) data
      ∧ head (operands (Call "relu6" [VRef 2]
                 [("complex_mode", VStr "jax"); ("out", VNone)])) = Some data.
Proof.
  split.
  - apply (first_operand (stub_return VNone) Logit (VRef 1) [] [] w0).
    vm_compute. reflexivity.
  - apply (first_operand (stub_return VNone) Relu6 (VRef 1) [] [] w0).
    vm_compute. reflexivity.
Defined.

(** C9: outside logsigmoid the receiver is positional-only and
    threshold, eps, complex_mode, alpha, max_val, min_val and out are
    keyword-only, so a positional argument beyond the receiver (beyond
    the slope, for prelu) is rejected before the backend is reached;
    logsigmoid alone declares positional-or-keyword parameters, and
    [handle.logsigmoid(cm)] forwards [complex_mode=cm]. *)
Theorem parameter_kinds :
  (∀ n p, n ≠ Logsigmoid → p ∈ sig_of n →
     (p_name p = "self" → p_kind p = PosOnly)
     ∧ (p_name p ∈ extra_names → p_kind p = KwOnly))
  ∧ (∀ n, n ≠ Logsigmoid → Param "self" PosOnly None ∈ sig_of n)
  ∧ (∀ (ivy : string → pyfunc) n self args kws w,
       n ≠ Logsigmoid →
       (if decide (n = Prelu) then 1 < length args else 0 < length args)%nat →
       ∃ why, invoke ivy n self args kws w = (Raise (TypeError why), w)
              ∧ issued (invoke ivy n self args kws) w = [])
  ∧ Param "complex_mode" PosOrKw (Some (VStr "jax")) ∈ sig_of Logsigmoid
  ∧ (∀ n p, p ∈ sig_of n → p_kind p = PosOrKw → n = Logsigmoid)
  ∧ (∀ (ivy : string → pyfunc) self data cm w,
       wraps (w_heap w) self data →
       invoke ivy Logsigmoid self [cm] [] w
       = ivy_call ivy "logsigmoid" [data] [("complex_mode", cm)] w
       ∧ issued (invoke ivy Logsigmoid self [cm] []) w
         = [Call "logsigmoid" [data] [("complex_mode", cm)]]).
Proof.
  split_and!.
  - intros n p Hn Hp. unfold extra_names.
    destruct n; try done; simpl in Hp;
      repeat (apply elem_of_cons in Hp as [->|Hp];
              [simpl; split; [done|];
               intros Hin;
               repeat (apply elem_of_cons in Hin as [Hin|Hin]; [done|]);
               by apply elem_of_nil in Hin|]);
      by apply elem_of_nil in Hp.
  - intros n Hn. destruct n; try done; apply list_elem_of_here.
  - intros ivy n self args kws w Hn Hlen.
    destruct (bind_args_too_many (sig_of n) (self :: args) kws) as [why Hb].
    { destruct n; try done; simpl in *; lia. }
    exists why. by apply rejected_call.
  - by apply list_elem_of_lookup_2 with 1%nat.
  - intros n p Hp Hk.
    destruct n; try done; simpl in Hp;
      repeat (apply elem_of_cons in Hp as [->|Hp]; [done|]);
      by apply elem_of_nil in Hp.
  - intros ivy self data cm w Hw.
    assert (invoke ivy Logsigmoid self [cm] [] w
            = ivy_call ivy "logsigmoid" [data] [("complex_mode", cm)] w) as Hr.
    { unfold invoke, method, logsigmoid, def.
      assert (bind_args logsigmoid_sig [self; cm] []
              = inr (list_to_map [("self", self); ("complex_mode", cm)]))
        as -> by (vm_compute; reflexivity).
      unfold Py.bind, getattr.
      change (local _ "self") with self. unfold wraps in Hw. by rewrite Hw. }
    split; [done|]. by rewrite (issued_ext _ _ _ Hr), issued_ivy_call.
Qed.

Lemma parameter_kinds_witness :
  (∃ why, invoke (stub_return VNone) Elu (VRef 1) [VInt 2] [] w0
          = (Raise (TypeError why), w0)
          ∧ issued (invoke (stub_return VNone) Elu (VRef 1) [VInt 2] []) w0 = [])
  ∧ issued (invoke (stub_return VNone) Logsigmoid (VRef 1) [VStr "split"] []) w0
    = [Call "logsigmoid" [VRef 2] [("complex_mode", VStr "split")]].
Proof.
  destruct parameter_kinds as (_ & _ & Hpos & _ & _ & Hlog).
  split.
  - apply (Hpos (stub_return VNone) Elu (VRef 1) [VInt 2] [] w0).
    + discriminate.
    + simpl. lia.
  - apply (Hlog (stub_return VNone) (VRef 1) (VRef 2) (VStr "split") w0).
    reflexivity.
Defined.

(** C10: the backend invocations a method call makes are determined by
    the method, the receiver with its [_data], and the arguments: two
    calls that agree on these issue the same invocations, whatever the
    backend, the rest of the heap and the earlier calls. *)
Theorem deterministic_invocations (ivy1 ivy2 : string → pyfunc)
    (n : activation) (self : value) (args : list value)
    (kws : list (string * value)) (w1 w2 : world) :
  read_attr (w_heap w1) self "_data" = read_attr (w_heap w2) self "_data" →
  issued (invoke ivy1 n self args kws) w1
  = issued (invoke ivy2 n self args kws) w2.
Proof.
  intros Heq.
  assert (receiver_operand n (w_heap w2) self
          = receiver_operand n (w_heap w1) self) as Hop.
  { unfold receiver_operand. by case_decide. }
  destruct (invoke_shape n self args kws (receiver_operand n (w_heap w1) self))
    as [[e H]|[c H]].
  - rewrite (issued_unchanged _ _ _ (H ivy1 w1 eq_refl)).
    by rewrite (issued_unchanged _ _ _ (H ivy2 w2 Hop)).
  - rewrite (issued_ext _ _ _ (H ivy1 w1 eq_refl)).
    rewrite (issued_ext _ _ _ (H ivy2 w2 Hop)).
    by rewrite !issued_ivy_call.
Qed.

Lemma deterministic_invocations_witness :
  issued (invoke (stub_return (VStr "sentinel")) Celu (VRef 1) []
            [("alpha", VInt 2)]) w0
  = issued (invoke (stub_raise (Exception (VStr "shape mismatch"))) Celu
              (VRef 1) [] [("alpha", VInt 2)]) w1.
Proof.
  apply (deterministic_invocations (stub_return (VStr "sentinel"))
           (stub_raise (Exception (VStr "shape mismatch"))) Celu (VRef 1) []
           [("alpha", VInt 2)] w0 w1).
  reflexivity.
Defined.

(** ** Further properties of the methods *)

Section MoreBinding.

Implicit Types (ps : list param) (env : gmap string value)
  (kws : list (string * value)) (args : list value) (k : string) (v : value).

Lemma bind_keyword_intro ps env kv p :
  find_param ps kv.1 = Some p → p_kind p ≠ PosOnly → env !! kv.1 = None →
  bind_keyword ps env kv = inr (<[kv.1 := kv.2]> env).
Proof.
  intros Hp Hk He. unfold bind_keyword. rewrite Hp, He.
  by destruct (p_kind p).
Qed.

(** Accepted keywords can be given in any order: the frame is the same. *)
Lemma bind_keywords_perm ps kws kws' :
  kws ≡ₚ kws' → ∀ env env',
  bind_keywords ps env kws = inr env' → bind_keywords ps env kws' = inr env'.
Proof.
  induction 1 as [|x l l' _ IH|x y l|l l' l'' _ IH1 _ IH2]; intros env env' H.
  - done.
  - simpl in *. destruct (bind_keyword ps env x); [done|]. by apply IH.
  - simpl in *.
    destruct (bind_keyword ps env y) as [|e1] eqn:Ey; [done|].
    destruct (bind_keyword ps e1 x) as [|e2] eqn:Ex; [done|].
    apply bind_keyword_inr in Ey as (Hy & -> & py & Hpy & Hky).
    apply bind_keyword_inr in Ex as (Hx & -> & px & Hpx & Hkx).
    assert (y.1 ≠ x.1) as Hne.
    { intros Heq. rewrite <- Heq, lookup_insert_eq in Hx. done. }
    rewrite lookup_insert_ne in Hx by done.
    rewrite (bind_keyword_intro ps env x px) by done.
    rewrite (bind_keyword_intro ps _ y py);
      [|done..|by rewrite lookup_insert_ne].
    by rewrite insert_insert_ne.
  - by apply IH2, IH1.
Qed.

Lemma bind_args_perm ps args kws kws' env :
  kws ≡ₚ kws' →
  bind_args ps args kws = inr env → bind_args ps args kws' = inr env.
Proof.
  intros Hp H. unfold bind_args in *.
  destruct (bind_keywords ps _ kws) as [|env1] eqn:E; [done|].
  by rewrite (bind_keywords_perm _ _ _ Hp _ _ E).
Qed.

(** The keywords pass binding exactly when no name is repeated and each
    names a still unbound parameter that takes keywords. *)
Lemma bind_keywords_inr_iff ps kws : ∀ env,
  (∃ env', bind_keywords ps env kws = inr env')
  ↔ NoDup kws.*1
    ∧ ∀ k, k ∈ kws.*1 →
        env !! k = None ∧ ∃ p, find_param ps k = Some p ∧ p_kind p ≠ PosOnly.
Proof.
  induction kws as [|kv kws IH]; intros env; simpl.
  - split; [|by eauto]. intros _. split; [constructor|].
    intros k Hk. by apply elem_of_nil in Hk.
  - split.
    + intros [env' H].
      destruct (bind_keyword ps env kv) as [|env1] eqn:E; [done|].
      apply bind_keyword_inr in E as (Hk & -> & Hp).
      destruct (proj1 (IH _) (ex_intro _ env' H)) as [Hnd Hall].
      split.
      * constructor; [|done]. intros Hin.
        destruct (Hall _ Hin) as [Hl _]. by rewrite lookup_insert_eq in Hl.
      * intros k [->|Hin]%elem_of_cons; [done|].
        destruct (Hall _ Hin) as [Hl Hq]. split; [|done].
        destruct (decide (kv.1 = k)) as [<-|Hne];
          [by rewrite lookup_insert_eq in Hl|by rewrite lookup_insert_ne in Hl].
    + intros [Hnd Hall]. apply NoDup_cons in Hnd as [Hnot Hnd].
      destruct (Hall kv.1) as (Hk & p & Hp & Hkind); [by left|].
      rewrite (bind_keyword_intro ps env kv p) by done.
      apply IH. split; [done|]. intros k Hin.
      destruct (Hall k) as [Hl Hq]; [by right|]. split; [|done].
      rewrite lookup_insert_ne; [done|]. by intros <-.
Qed.

(** Defaults can be filled in as soon as every parameter without one is
    bound. *)
Lemma fill_defaults_complete ps : ∀ env,
  (∀ p, p ∈ ps → p_default p = None → is_Some (env !! p_name p)) →
  ∃ env', fill_defaults ps env = inr env'.
Proof.
  induction ps as [|p ps IH]; intros env H; simpl; [by eauto|].
  destruct (env !! p_name p) eqn:E.
  - apply IH. intros q Hq. apply H. by right.
  - destruct (p_default p) as [d|] eqn:Ed.
    + apply IH. intros q Hq Hd.
      destruct (H q) as [x Hx]; [by right|done|].
      destruct (decide (p_name p = p_name q)) as [Heq|Hne].
      * rewrite Heq, lookup_insert_eq. by eexists.
      * rewrite lookup_insert_ne by done. by eexists.
    + destruct (H p) as [x Hx]; [by left|done|]. congruence.
Qed.

End MoreBinding.

Lemma invoke_bind_ext (ivy : string → pyfunc) (n : activation) (self : value)
    (args : list value) (kws kws' : list (string * value)) :
  bind_args (sig_of n) (self :: args) kws'
  = bind_args (sig_of n) (self :: args) kws →
  invoke ivy n self args kws' = invoke ivy n self args kws.
Proof.
  intros H.
  destruct n; unfold invoke, method, logit, thresholded_relu, prelu, relu6,
    logsigmoid, selu, silu, elu, hardtanh, tanhshrink, celu, def;
    simpl in H; by rewrite H.
Qed.

Lemma declared_keyword_param (n : activation) (k : string) :
  k ∈ p_name <$> declared_keywords n →
  k ≠ "self"
  ∧ ∃ p, find_param (sig_of n) k = Some p ∧ p_kind p ≠ PosOnly.
Proof.
  intros (p & -> & Hp)%list_elem_of_fmap.
  apply list_elem_of_filter in Hp as [[Hk Hs] Hp].
  split; [done|]. exists p. split; [|done]. by apply find_param_declared.
Qed.

Lemma positional_unfilled (n : activation) (self : value) (args : list value)
    (k : string) :
  (length args ≤ length (drop 1 (positional_slots (sig_of n))))%nat →
  k ≠ "self" →
  bind_positional (sig_of n) (self :: args) !! k = None
  ↔ k ∉ filled_positionally n args.
Proof.
  intros Hlen Hk.
  destruct n; simpl in Hlen;
    destruct args as [|a [|b args]]; simpl in Hlen; try lia;
    unfold bind_positional, filled_positionally; simpl;
    rewrite ?lookup_insert_None, ?lookup_empty;
    rewrite ?list_elem_of_singleton, ?elem_of_nil; naive_solver.
Qed.

(** A call binds exactly when it has the accepted shape. *)
Lemma call_binds_iff (n : activation) (self : value) (args : list value)
    (kws : list (string * value)) :
  (∃ env, bind_args (sig_of n) (self :: args) kws = inr env)
  ↔ accepted n args kws.
Proof.
  split.
  - intros [env Hb].
    destruct (bind_args_inr _ _ _ _ Hb) as (env1 & Hk & Hlen & Hd).
    assert (length args ≤ length (drop 1 (positional_slots (sig_of n))))%nat
      as Hhi by (destruct n; simpl in *; lia).
    split_and!; [|done| |].
    + destruct n; simpl; try lia.
      destruct args; simpl; [|lia].
      destruct (bind_args_missing prelu_sig [self] kws "slope"
                  (Param "slope" PosOnly None)) as [why Hw]; [done..|].
      simpl in Hb. congruence.
    + by apply (bind_keywords_inr_iff (sig_of n) kws
                  (bind_positional (sig_of n) (self :: args))); eauto.
    + intros k ([k0 v] & -> & Hin)%list_elem_of_fmap. simpl.
      destruct (keyword_declared n self args kws env k0 v Hb Hin)
        as (p & Hp & <- & _).
      assert (p_name p ∈ p_name <$> declared_keywords n) as Hdecl.
      { apply list_elem_of_fmap. by exists p. }
      split; [done|].
      apply (positional_unfilled n self);
        [done|by destruct (declared_keyword_param n _ Hdecl)|].
      by destruct (bind_args_keyword _ _ _ _ _ _ Hb Hin) as (_ & H0 & _).
  - intros ((Hlo & Hhi) & Hnd & Hall). unfold bind_args.
    destruct (proj2 (bind_keywords_inr_iff (sig_of n) kws
                       (bind_positional (sig_of n) (self :: args))))
      as [env1 Hk].
    { split; [done|]. intros k Hin. destruct (Hall k Hin) as [Hdecl Hnf].
      destruct (declared_keyword_param n k Hdecl) as [Hs Hp].
      split; [|done]. by apply positional_unfilled. }
    rewrite Hk. rewrite decide_False by (destruct n; simpl in *; lia).
    apply fill_defaults_complete. intros p Hp Hd.
    assert (is_Some (bind_positional (sig_of n) (self :: args) !! p_name p))
      as [x Hx].
    { destruct n; simpl in Hp;
        repeat (apply elem_of_cons in Hp as [->|Hp];
                [first [done | by eexists; apply lookup_insert_eq | idtac]|]);
        try (by apply elem_of_nil in Hp).
      destruct args as [|a args]; simpl in Hlo; [lia|].
      exists a. unfold bind_positional. simpl.
      rewrite lookup_insert_ne by done. apply lookup_insert_eq. }
    exists x. eapply lookup_weaken; [done|]. by eapply bind_keywords_mono.
Qed.

(** X1: each of the ten methods that unwrap the receiver raises
    [AttributeError] on [_data] when the call binds but the receiver has
    no such attribute; the backend is not called and the world is as
    before. *)
Theorem unwrap_missing_data (ivy : string → pyfunc) (n : activation)
    (self : value) (args : list value) (kws : list (string * value))
    (env : gmap string value) (w : world) :
  n ≠ Logit →
  bind_args (sig_of n) (self :: args) kws = inr env →
  read_attr (w_heap w) self "_data" = None →
  invoke ivy n self args kws w = (Raise (AttributeError self "_data"), w)
  ∧ issued (invoke ivy n self args kws) w = [].
Proof.
  intros Hn Hb Hr. pose proof (invoke_cases n self args kws) as H.
  rewrite Hb in H. destruct H as [Hnone _].
  assert (invoke ivy n self args kws w
          = (Raise (AttributeError self "_data"), w)) as Hrun.
  { apply Hnone. by rewrite receiver_operand_other. }
  split; [done|]. by eapply issued_unchanged.
Qed.

Lemma unwrap_missing_data_witness :
  invoke (stub_return (VStr "sentinel")) Hardtanh (VRef 2) []
    [("max_val", VInt 3)] w0
  = (Raise (AttributeError (VRef 2) "_data"), w0)
  ∧ issued (invoke (stub_return (VStr "sentinel")) Hardtanh (VRef 2) []
              [("max_val", VInt 3)]) w0 = [].
Proof.
  apply (unwrap_missing_data (stub_return (VStr "sentinel")) Hardtanh (VRef 2)
           [] [("max_val", VInt 3)]
           (list_to_map [("self", VRef 2); ("max_val", VInt 3);
                         ("min_val", VInt (-1)); ("out", VNone)]) w0).
  - discriminate.
  - vm_compute. reflexivity.
  - reflexivity.
Defined.

(** X2: a method never produces a result of its own.  When it ends
    without having called the backend, it has raised: a [TypeError] from
    binding the arguments, or, for the methods other than logit, the
    [AttributeError] of a receiver without [_data]; the world is
    unchanged in both cases. *)
Theorem no_result_without_backend (ivy : string → pyfunc) (n : activation)
    (self : value) (args : list value) (kws : list (string * value))
    (w : world) :
  issued (invoke ivy n self args kws) w = [] →
  (∃ why, invoke ivy n self args kws w = (Raise (TypeError why), w))
  ∨ (n ≠ Logit
     ∧ read_attr (w_heap w) self "_data" = None
     ∧ invoke ivy n self args kws w = (Raise (AttributeError self "_data"), w)).
Proof.
  intros Hi. pose proof (invoke_cases n self args kws) as H.
  destruct (bind_args _ _ _) as [why|env] eqn:Hb; [left; eauto|].
  destruct H as [Hnone Hsome].
  destruct (receiver_operand n (w_heap w) self) as [first|] eqn:Hop.
  - destruct (Hsome first) as (c & _ & _ & _ & Hrun).
    rewrite (issued_ext _ _ _ (Hrun ivy w Hop)), issued_ivy_call in Hi. done.
  - right. unfold receiver_operand in Hop. case_decide; [done|].
    split_and!; [done..|]. apply Hnone. by rewrite receiver_operand_other.
Qed.

Lemma no_result_without_backend_witness :
  (∃ why, invoke (stub_return (VStr "sentinel")) Selu (VInt 5) [] [] w0
          = (Raise (TypeError why), w0))
  ∨ (Selu ≠ Logit
     ∧ read_attr (w_heap w0) (VInt 5) "_data" = None
     ∧ invoke (stub_return (VStr "sentinel")) Selu (VInt 5) [] [] w0
       = (Raise (AttributeError (VInt 5) "_data"), w0)).
Proof.
  apply (no_result_without_backend (stub_return (VStr "sentinel")) Selu
           (VInt 5) [] [] w0).
  vm_compute. reflexivity.
Defined.

(** X3: the order in which the caller writes the keywords does not
    matter.  Two calls that differ in it issue the same backend call and
    end alike, unless both are rejected with a [TypeError] (whose
    message may differ). *)
Theorem keyword_order_irrelevant (ivy : string → pyfunc) (n : activation)
    (self : value) (args : list value) (kws kws' : list (string * value))
    (w : world) :
  kws ≡ₚ kws' →
  issued (invoke ivy n self args kws') w = issued (invoke ivy n self args kws) w
  ∧ (invoke ivy n self args kws' w = invoke ivy n self args kws w
     ∨ ∃ why why',
         invoke ivy n self args kws w = (Raise (TypeError why), w)
         ∧ invoke ivy n self args kws' w = (Raise (TypeError why'), w)).
Proof.
  intros Hp.
  destruct (bind_args (sig_of n) (self :: args) kws) as [why|env] eqn:Hb.
  - destruct (bind_args (sig_of n) (self :: args) kws') as [why'|env'] eqn:Hb'.
    + destruct (rejected_call ivy n self args kws w why Hb) as [H1 H2].
      destruct (rejected_call ivy n self args kws' w why' Hb') as [H1' H2'].
      split; [congruence|]. right. eauto.
    + symmetry in Hp. apply (bind_args_perm _ _ _ _ _ Hp) in Hb'. congruence.
  - assert (invoke ivy n self args kws' = invoke ivy n self args kws) as ->.
    { apply invoke_bind_ext. rewrite Hb. by eapply bind_args_perm. }
    split; [done|by left].
Qed.

Lemma keyword_order_irrelevant_witness :
  issued (invoke (stub_return (VStr "sentinel")) Hardtanh (VRef 1) []
            [("min_val", VInt 0); ("max_val", VInt 3)]) w0
  = issued (invoke (stub_return (VStr "sentinel")) Hardtanh (VRef 1) []
              [("max_val", VInt 3); ("min_val", VInt 0)]) w0
  ∧ (invoke (stub_return (VStr "sentinel")) Hardtanh (VRef 1) []
       [("min_val", VInt 0); ("max_val", VInt 3)] w0
     = invoke (stub_return (VStr "sentinel")) Hardtanh (VRef 1) []
         [("max_val", VInt 3); ("min_val", VInt 0)] w0
     ∨ ∃ why why',
         invoke (stub_return (VStr "sentinel")) Hardtanh (VRef 1) []
           [("max_val", VInt 3); ("min_val", VInt 0)] w0
         = (Raise (TypeError why), w0)
         ∧ invoke (stub_return (VStr "sentinel")) Hardtanh (VRef 1) []
             [("min_val", VInt 0); ("max_val", VInt 3)] w0
           = (Raise (TypeError why'), w0)).
Proof.
  apply (keyword_order_irrelevant (stub_return (VStr "sentinel")) Hardtanh
           (VRef 1) [] [("max_val", VInt 3); ("min_val", VInt 0)]
           [("min_val", VInt 0); ("max_val", VInt 3)] w0).
  apply perm_swap.
Defined.

(** X4: the positional operands of the backend call are the first
    operand followed by the caller's positional arguments, unchanged and
    in order, except in logsigmoid, whose positional [complex_mode] goes
    to the backend as a keyword: prelu passes exactly [data] and the
    slope, every other method exactly one operand. *)
Theorem operands_exact (ivy : string → pyfunc) (n : activation)
    (self data : value) (args : list value) (kws : list (string * value))
    (env : gmap string value) (w : world) (c : call) :
  bind_args (sig_of n) (self :: args) kws = inr env →
  wraps (w_heap w) self data →
  issued (invoke ivy n self args kws) w = [c] →
  operands c
  = (if decide (n = Logit) then self else data)
      :: (if decide (n = Logsigmoid) then [] else args)
  ∧ length (operands c) = (if decide (n = Prelu) then 2 else 1)%nat.
Proof.
  intros Hb Hw Hc.
  destruct (invoke_ok ivy n self data args kws env w Hb Hw)
    as (c' & _ & Ho & _ & _ & Hi).
  assert (c' = c) as -> by congruence.
  destruct (proj1 (call_binds_iff n self args kws) (ex_intro _ env Hb))
    as ((Hlo & Hhi) & _).
  assert (∀ k a, bind_positional (sig_of n) (self :: args) !! k = Some a →
                 local env k = a) as Hpos.
  { intros k a Hk. unfold local. by erewrite bind_args_positional. }
  rewrite Ho.
  destruct n; simpl in Hlo, Hhi;
    destruct args as [|a [|b args]]; simpl in Hlo, Hhi; try lia;
    simpl; try done.
  by rewrite (Hpos "slope" a).
Qed.

Lemma operands_exact_witness :
  operands (Call "prelu" [VRef 2; VInt 7] [("out", VNone)])
  = (if decide (Prelu = Logit) then VRef 1 else VRef 2)
      :: (if decide (Prelu = Logsigmoid) then [] else [VInt 7])
  ∧ length (operands (Call "prelu" [VRef 2; VInt 7] [("out", VNone)]))
    = (if decide (Prelu = Prelu) then 2 else 1)%nat.
Proof.
  apply (operands_exact (stub_return (VStr "sentinel")) Prelu (VRef 1) (VRef 2)
           [VInt 7] []
           (list_to_map [("self", VRef 1); ("slope", VInt 7); ("out", VNone)])
           w0).
  - vm_compute. reflexivity.
  - reflexivity.
  - vm_compute. reflexivity.
Defined.

(** X5: a call [handle.N(...)] is rejected with a [TypeError], before
    the receiver is unwrapped and before any backend call, exactly when
    it does not have the accepted shape: a wrong number of positional
    arguments, a repeated keyword, a keyword [N] does not declare (there
    is no catch-all for extra keywords), or a keyword for a parameter a
    positional argument has filled. *)
Theorem rejected_iff_not_accepted (ivy : string → pyfunc) (n : activation)
    (self : value) (args : list value) (kws : list (string * value))
    (w : world) :
  (∃ why, invoke ivy n self args kws w = (Raise (TypeError why), w)
          ∧ issued (invoke ivy n self args kws) w = [])
  ↔ ¬ accepted n args kws.
Proof.
  split.
  - intros (why & Hrun & Hi) Hacc.
    apply (call_binds_iff n self) in Hacc as [env Hb].
    pose proof (invoke_cases n self args kws) as H. rewrite Hb in H.
    destruct H as [Hnone Hsome].
    destruct (receiver_operand n (w_heap w) self) as [first|] eqn:Hop.
    + destruct (Hsome first) as (c & _ & _ & _ & Hc).
      rewrite (issued_ext _ _ _ (Hc ivy w Hop)), issued_ivy_call in Hi. done.
    + rewrite (Hnone ivy w Hop) in Hrun. done.
  - intros Hna.
    destruct (bind_args (sig_of n) (self :: args) kws) as [why|env] eqn:Hb.
    + exists why. by apply rejected_call.
    + destruct Hna. apply (call_binds_iff n self). eauto.
Qed.

Lemma rejected_iff_not_accepted_witness :
  accepted Logsigmoid [VStr "split"] []
  ∧ ∃ why,
      invoke (stub_return (VStr "sentinel")) Logsigmoid (VRef 1) [VStr "split"]
        [("complex_mode", VStr "jax")] w0
      = (Raise (TypeError why), w0)
      ∧ issued (invoke (stub_return (VStr "sentinel")) Logsigmoid (VRef 1)
                  [VStr "split"] [("complex_mode", VStr "jax")]) w0 = [].
Proof.
  split.
  - apply (call_binds_iff Logsigmoid (VRef 1)). eexists.
    vm_compute. reflexivity.
  - apply (rejected_iff_not_accepted (stub_return (VStr "sentinel"))
             Logsigmoid (VRef 1) [VStr "split"]
             [("complex_mode", VStr "jax")] w0).
    intros (_ & _ & H). destruct (H "complex_mode") as [_ Hnf].
    + apply list_elem_of_here.
    + apply Hnf. apply list_elem_of_here.
Defined.

(** X6: the backend is reached exactly by the calls of accepted shape
    whose receiver can be unwrapped (for logit: by every call of
    accepted shape). *)
Theorem backend_reached_iff (ivy : string → pyfunc) (n : activation)
    (self : value) (args : list value) (kws : list (string * value))
    (w : world) :
  (∃ c, issued (invoke ivy n self args kws) w = [c])
  ↔ accepted n args kws
    ∧ (n = Logit ∨ ∃ data, wraps (w_heap w) self data).
Proof.
  pose proof (invoke_cases n self args kws) as H. split.
  - intros [c Hc].
    destruct (bind_args _ _ _) as [why|env] eqn:Hb.
    { rewrite (issued_unchanged _ _ _ (H ivy w)) in Hc. done. }
    destruct H as [Hnone Hsome]. split.
    + apply (call_binds_iff n self). eauto.
    + destruct (receiver_operand n (w_heap w) self) as [first|] eqn:Hop.
      * unfold receiver_operand in Hop. case_decide; [by left|right; eauto].
      * rewrite (issued_unchanged _ _ _ (Hnone ivy w Hop)) in Hc. done.
  - intros [[env Hb]%(call_binds_iff n self) Hrecv]. rewrite Hb in H.
    destruct H as [_ Hsome].
    assert (∃ first, receiver_operand n (w_heap w) self = Some first)
      as [first Hop].
    { unfold receiver_operand. destruct Hrecv as [->|[data Hw]].
      - by eexists.
      - case_decide; by eexists. }
    destruct (Hsome first) as (c & _ & _ & _ & Hc). exists c.
    rewrite (issued_ext _ _ _ (Hc ivy w Hop)), issued_ivy_call. by destruct c.
Qed.

Section ExplicitDefaults.

Implicit Types (ps : list param) (env : gmap string value)
  (kws : list (string * value)) (args : list value) (k : string) (v : value).

Lemma bind_keywords_app ps kws kws' : ∀ env,
  bind_keywords ps env (kws ++ kws')
  = match bind_keywords ps env kws with
    | inl why => inl why
    | inr env1 => bind_keywords ps env1 kws'
    end.
Proof.
  induction kws as [|kv kws IH]; intros env; simpl; [done|].
  by destruct (bind_keyword ps env kv).
Qed.

(** Binding a parameter to its default beforehand changes nothing. *)
Lemma fill_defaults_prefilled ps : ∀ env k p d,
  find_param ps k = Some p → p_default p = Some d → env !! k = None →
  fill_defaults ps (<[k := d]> env) = fill_defaults ps env.
Proof.
  induction ps as [|q ps IH]; intros env k p d Hf Hd Hk; [done|].
  rewrite find_param_cons in Hf. simpl. case_decide as Hn.
  - simplify_eq. by rewrite lookup_insert_eq, Hk, Hd.
  - rewrite lookup_insert_ne by done.
    destruct (env !! p_name q) eqn:E; [by apply (IH env k p d)|].
    destruct (p_default q) as [dq|]; [|done].
    rewrite insert_insert_ne by done.
    apply (IH _ k p d); [done..|]. by rewrite lookup_insert_ne.
Qed.

Lemma bind_args_explicit_default ps args kws env k p d :
  bind_args ps args kws = inr env →
  find_param ps k = Some p → p_default p = Some d → p_kind p ≠ PosOnly →
  k ∉ kws.*1 → bind_positional ps args !! k = None →
  bind_args ps args (kws ++ [(k, d)]) = inr env.
Proof.
  intros Hb Hf Hd Hkind Hnot H0.
  destruct (bind_args_inr _ _ _ _ Hb) as (env1 & Hk & Hlen & Hfill).
  assert (env1 !! k = None) as H1.
  { destruct (env1 !! k) as [v|] eqn:E; [|done].
    destruct (bind_keywords_origin _ _ _ _ _ _ Hk E) as [?|Hin]; [congruence|].
    destruct Hnot. apply list_elem_of_fmap. by exists (k, v). }
  unfold bind_args. rewrite bind_keywords_app, Hk. simpl.
  rewrite (bind_keyword_intro ps env1 (k, d) p) by done. simpl.
  rewrite decide_False by lia.
  by rewrite (fill_defaults_prefilled ps env1 k p d).
Qed.

End ExplicitDefaults.

(** X7: writing a parameter's default out is the same as leaving the
    parameter out: if a call is accepted and does not give [p], the call
    with [p=default] added behaves identically. *)
Theorem explicit_default_same (ivy : string → pyfunc) (n : activation)
    (self : value) (args : list value) (kws : list (string * value))
    (env : gmap string value) (w : world) (p : param) (d : value) :
  bind_args (sig_of n) (self :: args) kws = inr env →
  p ∈ sig_of n → p_default p = Some d →
  p_name p ∉ kws.*1 →
  bind_positional (sig_of n) (self :: args) !! p_name p = None →
  invoke ivy n self args (kws ++ [(p_name p, d)]) w
  = invoke ivy n self args kws w.
Proof.
  intros Hb Hp Hd Hnot H0.
  assert (p ∈ declared_keywords n) as Hkw
    by (apply optional_is_keyword; [done|by rewrite Hd]).
  apply list_elem_of_filter in Hkw as [[Hkind _] _].
  rewrite (invoke_bind_ext ivy n self args kws (kws ++ [(p_name p, d)]));
    [done|].
  rewrite Hb.
  apply (bind_args_explicit_default _ _ _ _ _ p d); try done.
  by apply find_param_declared.
Qed.

Lemma explicit_default_same_witness :
  invoke (stub_return (VStr "sentinel")) Celu (VRef 1) []
    ([("out", VRef 3)] ++ [("alpha", VFloat float_1_0)]) w0
  = invoke (stub_return (VStr "sentinel")) Celu (VRef 1) []
      [("out", VRef 3)] w0.
Proof.
  apply (explicit_default_same (stub_return (VStr "sentinel")) Celu (VRef 1) []
           [("out", VRef 3)]
           (list_to_map [("self", VRef 1); ("alpha", VFloat float_1_0);
                         ("complex_mode", VStr "jax"); ("out", VRef 3)])
           w0 (Param "alpha" KwOnly (Some (VFloat float_1_0)))).
  - vm_compute. reflexivity.
  - apply list_elem_of_lookup_2 with 1%nat. reflexivity.
  - reflexivity.
  - vm_compute. intros H. by apply list_elem_of_singleton in H.
  - vm_compute. reflexivity.
Defined.

(** X8: logsigmoid takes [complex_mode] positionally or by keyword with
    the same effect: [handle.logsigmoid(cm)] and
    [handle.logsigmoid(complex_mode=cm)] behave identically. *)
Theorem logsigmoid_positional_is_keyword (ivy : string → pyfunc)
    (self cm : value) (w : world) :
  invoke ivy Logsigmoid self [cm] [] w
  = invoke ivy Logsigmoid self [] [("complex_mode", cm)] w.
Proof.
  unfold invoke, method, logsigmoid, def.
  assert (bind_args logsigmoid_sig [self; cm] []
          = inr (list_to_map [("self", self); ("complex_mode", cm)]))
    as -> by (vm_compute; reflexivity).
  assert (bind_args logsigmoid_sig [self] [("complex_mode", cm)]
          = inr (list_to_map [("self", self); ("complex_mode", cm)]))
    as -> by (vm_compute; reflexivity).
  reflexivity.
Qed.
